(** * Credential verification in [auth.ts]

    A shallow embedding of the three functions of [src/auth.ts]
    ([getDb], [getUser] and the [authorize] callback handed to the
    Credentials provider) together with the properties the specification
    states about them.  Two neighbours follow: the query route that comes
    with the file ([Route]: its own [getDb], [listInvoices] and [GET])
    and the login action that calls [authorize] through NextAuth
    ([Actions]: [authenticate]).

    The module-level variable [sql], the console and the calls that leave
    the process (the SQL query, [bcrypt.compare]) are threaded through a
    small state-and-exception monad.  What lies outside the file is split
    in two: the packages it imports ([Libraries]: zod's email grammar and
    bcrypt's comparison; [Driver]: what the postgres package makes of a
    connection string) and the environment it runs in ([World]: the
    [POSTGRES_URL] variable, the rows of the [users] table and whether the
    database answers). *)

From Stdlib Require Import Strings.Ascii.
From stdpp Require Import gmap strings list.

Local Open Scope string_scope.

(** ** JavaScript values and errors *)

(** The values a field of the [credentials] object can hold.  Only the
    distinction between a string and everything else matters to
    [z.string()]. *)
Inductive JsValue : Type :=
  | JsUndefined
  | JsNull
  | JsBoolean (b : bool)
  | JsNumber (n : Z)
  | JsString (s : string)
  | JsObject.

(** An error object.  [Error message] is [new Error(message)], the only
    kind the source makes: it has no enumerable property of its own.
    [LibraryError message own] is an error made by a package, which may
    carry own enumerable properties ([code], [errno], [input], ...). *)
Inductive JsError : Type :=
  | Error (message : string)
  | LibraryError (message : string) (own : list (string * JsValue)).

(** How a call ends: it returns a value or it throws (for an [async]
    function: the promise resolves or rejects). *)
Inductive Result (A : Type) : Type :=
  | Ok (a : A)
  | Throw (e : JsError).
Arguments Ok {A} a.
Arguments Throw {A} e.

(** ** Data *)

(** Modelled from the spec: the [User] type of [@/app/lib/definitions],
    which is not among the source files.  The fields are those of the
    spec's User Record; [password] is the column [authorize] reads as
    [user.password], that is, the stored salted hash. *)
Record User : Type := mkUser {
  user_id : string;
  user_name : string;
  email : string;
  password : string
}.

#[global] Instance User_eq_dec : EqDecision User.
Proof. solve_decision. Defined.

(** The [credentials] argument of [authorize]: an object whose fields
    hold unknown values. *)
Abbreviation Credentials := (gmap string JsValue).

(** [parsedCredentials.data]: the two validated strings. *)
Record ParsedData : Type := mkData {
  data_email : string;
  data_password : string
}.

(** The handle [postgres(url, { ssl })] returns: it remembers its
    options and opens no socket until the first query. *)
Record Connection : Type := mkConnection {
  conn_url : string;
  conn_ssl : string
}.

(** ** The outside world *)

(** The imported packages, as far as [authorize] uses them. *)
Class Libraries : Type := {
  (** the grammar behind [z.string().email()] *)
  is_email : string → bool;
  (** [bcrypt.compare(data, hash)] *)
  bcrypt_compare : string → string → bool
}.

(** The postgres package, as far as [getDb] uses it: the call parses
    the connection string at once and throws when it cannot. *)
Class Driver : Type := {
  (** the error thrown for a connection string that does not parse
      ([TypeError: Invalid URL]), if any *)
  url_error : string → option JsError
}.

(** [postgres(url, { ssl })] *)
Definition postgres `{Driver} (url ssl : string) : Result Connection :=
  match url_error url with
  | Some e => Throw e
  | None => Ok {| conn_url := url; conn_ssl := ssl |}
  end.

(** The environment of one call. *)
Record World : Type := mkWorld {
  (** [process.env.POSTGRES_URL] *)
  POSTGRES_URL : option string;
  (** the rows of the [users] table, in the order the database yields them *)
  users : list User;
  (** [Some e] while the storage layer is failing (connection error,
      timeout): every query rejects with [e] *)
  storage_fault : option JsError
}.

(** ** Observable effects *)

Inductive Event : Type :=
  | SqlQuery (conn : Connection) (param : string)
  | BcryptCompare (data hash : string)
  | ConsoleError (label : string) (error : JsError)
  | ConsoleLog (message : string).

#[global] Instance JsValue_eq_dec : EqDecision JsValue.
Proof. solve_decision. Defined.
#[global] Instance JsError_eq_dec : EqDecision JsError.
Proof. solve_decision. Defined.
#[global] Instance Connection_eq_dec : EqDecision Connection.
Proof. solve_decision. Defined.
#[global] Instance Event_eq_dec : EqDecision Event.
Proof. solve_decision. Defined.

(** The state a call can change: the module variable [sql] and the
    events emitted so far, oldest first. *)
Record Store : Type := mkStore {
  sql : option Connection;
  trace : list Event
}.

(** ** The monad of stateful, throwing computations *)

Definition M (A : Type) : Type := Store → Result A * Store.

Definition ret {A} (a : A) : M A := λ s, (Ok a, s).

Definition throw {A} (e : JsError) : M A := λ s, (Throw e, s).

Definition bind {A B} (m : M A) (k : A → M B) : M B :=
  λ s, match m s with
       | (Ok a, s') => k a s'
       | (Throw e, s') => (Throw e, s')
       end.

(** [try { body } catch (error) { handler }] *)
Definition try_catch {A} (body : M A) (handler : JsError → M A) : M A :=
  λ s, match body s with
       | (Ok a, s') => (Ok a, s')
       | (Throw e, s') => handler e s'
       end.

(** A call that touches no state of the module. *)
Definition lift {A} (r : Result A) : M A := λ s, (r, s).

Definition get_sql : M (option Connection) := λ s, (Ok (sql s), s).

Definition set_sql (c : Connection) : M unit :=
  λ s, (Ok tt, {| sql := Some c; trace := trace s |}).

Definition emit (ev : Event) : M unit :=
  λ s, (Ok tt, {| sql := sql s; trace := trace s ++ [ev] |}).

(** [let* x := m in k] runs [m], stops if it throws, and otherwise
    continues with [k]; it reads as [const x = await m; k]. *)
Notation "'let*' x ':=' m 'in' k" := (bind m (λ x, k))
  (at level 10, x name, m at level 100, k at level 200, only parsing).

(** ** [getDb] *)

(** [!process.env.POSTGRES_URL]: the variable is unset or empty. *)
Definition env_missing (v : option string) : bool :=
  match v with
  | None => true
  | Some url => bool_decide (url = "")
  end.

(** The lazy initialisation: a cached connection is returned as it is;
    otherwise the variable is read, and the call throws when it is unset
    or empty, throws what [postgres] throws when the value does not
    parse, and caches the new connection when it does. *)
Definition getDb `{Driver} (w : World) : M Connection :=
  let* cached := get_sql in
  match cached with
  | Some c => ret c
  | None =>
      match POSTGRES_URL w with
      | Some url =>
          if env_missing (Some url)
          then throw (Error "POSTGRES_URL environment variable is not set")
          else
            let* c := lift (postgres url "require") in
            let* _ := set_sql c in ret c
      | None => throw (Error "POSTGRES_URL environment variable is not set")
      end
  end.

(** ** [getUser] *)

(** The rows [SELECT * FROM users WHERE email=$1] selects. *)
Definition select_users_by_email (w : World) (e : string) : list User :=
  filter (λ u, email u = e) (users w).

(** Running the tagged-template query on a connection. *)
Definition run_query (w : World) (c : Connection) (e : string) : M (list User) :=
  let* _ := emit (SqlQuery c e) in
  match storage_fault w with
  | Some err => throw err
  | None => ret (select_users_by_email w e)
  end.

Definition getUser `{Driver} (w : World) (e : string) : M (option User) :=
  try_catch
    (let* c := getDb w in
     let* user := run_query w c e in
     ret (head user))
    (λ error,
       let* _ := emit (ConsoleError "Failed to fetch user:" error) in
       throw (Error "Failed to fetch user.")).

(** ** Schema validation *)

(** [z.string()] followed by one check: the value must be a string and
    pass the check. *)
Definition z_string (check : string → bool) (v : JsValue) : option string :=
  match v with
  | JsString s => if check s then Some s else None
  | _ => None
  end.

(** [.min(6)]: [s.length >= n]; a character of the string stands for one
    code unit. *)
Definition min (n : nat) (s : string) : bool :=
  bool_decide (n ≤ String.length s)%nat.

(** Reading a property of an object: [undefined] when it is absent. *)
Definition prop (o : Credentials) (key : string) : JsValue :=
  default JsUndefined (o !! key).

(** [z.object({ email: z.string().email(), password: z.string().min(6) })
    .safeParse(credentials)]: [Some data] on success, [None] otherwise
    (the issues zod collects are never read by [authorize]). *)
Definition safeParse `{Libraries} (credentials : Credentials) : option ParsedData :=
  match z_string is_email (prop credentials "email"),
        z_string (min 6) (prop credentials "password") with
  | Some e, Some p => Some {| data_email := e; data_password := p |}
  | _, _ => None
  end.

(** ** [authorize] *)

(** [await bcrypt.compare(data, hash)] *)
Definition compare `{Libraries} (data hash : string) : M bool :=
  let* _ := emit (BcryptCompare data hash) in
  ret (bcrypt_compare data hash).

(** The tail of [authorize], reached when parsing fails or the passwords
    do not match. *)
Definition invalid_credentials : M (option User) :=
  let* _ := emit (ConsoleLog "Invalid credentials") in
  ret None.

(** The callback: [Ok (Some user)] is [return user], [Ok None] is
    [return null]. *)
Definition authorize `{Libraries} `{Driver} (w : World) (credentials : Credentials)
  : M (option User) :=
  match safeParse credentials with
  | Some data =>
      let* user := getUser w (data_email data) in
      match user with
      | None => ret None
      | Some u =>
          let* passwordsMatch := compare (data_password data) (password u) in
          if passwordsMatch then ret (Some u) else invalid_credentials
      end
  | None => invalid_credentials
  end.

(** ** Predicates used in the statements *)

(** What [postgres] makes of the variable as it stands: a connection,
    or nothing when the variable is unset or empty or does not parse. *)
Definition fresh_connection `{Driver} (w : World) : option Connection :=
  match POSTGRES_URL w with
  | Some url =>
      if env_missing (Some url) then None
      else match postgres url "require" with
           | Ok c => Some c
           | Throw _ => None
           end
  | None => None
  end.

(** The connection a call to [getDb] ends up with: the cached one, or a
    fresh one when the variable is set and parses; [None] when neither
    exists. *)
Definition connection_of `{Driver} (w : World) (s : Store) : option Connection :=
  match sql s with
  | Some c => Some c
  | None => fresh_connection w
  end.

(** The error [getDb] throws when it has nothing cached and cannot make
    a connection: the package's own error for a value that does not
    parse, the configuration error otherwise. *)
Definition init_error `{Driver} (w : World) : JsError :=
  match POSTGRES_URL w with
  | Some url =>
      if env_missing (Some url)
      then Error "POSTGRES_URL environment variable is not set"
      else match postgres url "require" with
           | Throw e => e
           | Ok _ => Error "POSTGRES_URL environment variable is not set"
           end
  | None => Error "POSTGRES_URL environment variable is not set"
  end.

(** The storage layer answers: no fault, and a connection can be had. *)
Definition storage_available `{Driver} (w : World) (s : Store) : Prop :=
  storage_fault w = None ∧ is_Some (connection_of w s).

(** A valid-shaped input: both fields are strings, the email matches the
    grammar and the password has at least six characters. *)
Definition valid_shaped `{Libraries} (credentials : Credentials) (e p : string) : Prop :=
  credentials !! "email" = Some (JsString e) ∧ is_email e = true ∧
  credentials !! "password" = Some (JsString p) ∧ (6 ≤ String.length p)%nat.

Definition is_string (v : JsValue) : bool :=
  match v with JsString _ => true | _ => false end.

(** The ways an input can be malformed, one constructor per case the
    specification lists. *)
Inductive Malformed `{Libraries} (credentials : Credentials) : Prop :=
  | missing_email : credentials !! "email" = None → Malformed credentials
  | missing_password : credentials !! "password" = None → Malformed credentials
  | email_wrong_type v :
      credentials !! "email" = Some v → is_string v = false → Malformed credentials
  | password_wrong_type v :
      credentials !! "password" = Some v → is_string v = false → Malformed credentials
  | email_bad_grammar e :
      credentials !! "email" = Some (JsString e) → is_email e = false →
      Malformed credentials
  | password_too_short p :
      credentials !! "password" = Some (JsString p) → (String.length p < 6)%nat →
      Malformed credentials.

(** The spec's data-model invariant: no two stored records share an
    email.  The schema is expected to enforce it; the lookup does not. *)
Definition unique_emails (w : World) : Prop := NoDup (email <$> users w).

(** How many events of a trace are storage queries, hash comparisons. *)
Definition is_query (ev : Event) : bool :=
  match ev with SqlQuery _ _ => true | _ => false end.
Definition is_compare (ev : Event) : bool :=
  match ev with BcryptCompare _ _ => true | _ => false end.
Definition queries (t : list Event) : nat := length (filter (λ ev, is_query ev = true) t).
Definition comparisons (t : list Event) : nat := length (filter (λ ev, is_compare ev = true) t).

(** The events that leave the process for the database or the hash, and
    those of a trace, in the order they happened. *)
Definition is_io (ev : Event) : bool := is_query ev || is_compare ev.
Definition io (t : list Event) : list Event := filter (λ ev, is_io ev = true) t.

(** The events that go to the console. *)
Definition is_console (ev : Event) : bool :=
  match ev with ConsoleError _ _ | ConsoleLog _ => true | _ => false end.

(** * The query route

    The second module of the source: a route handler that lists the
    invoices of amount 666 with the names of their customers.  It keeps
    an [sql] variable of its own, filled by its own copy of [getDb]. *)
Module Route.

(** The [invoices] and [customers] tables, reduced to the columns the
    query names; their declarations are not among the source files. *)
Record Invoice : Type := mkInvoice {
  invoice_customer_id : string;
  invoice_amount : Z
}.

Record Customer : Type := mkCustomer {
  customer_id : string;
  customer_name : string
}.

(** A row of the result: the two selected columns. *)
Record Row : Type := mkRow {
  amount : Z;
  name : string
}.

#[global] Instance Row_eq_dec : EqDecision Row.
Proof. solve_decision. Defined.

(** The database: the two tables, and the order in which it hands out
    the rows of a result.  The query has no [ORDER BY], so the order is
    the database's to choose; all that is known of it is that it
    rearranges the rows. *)
Record Database : Type := mkDatabase {
  invoices : list Invoice;
  customers : list Customer;
  row_order : list Row → list Row;
  row_order_perm : ∀ rows, row_order rows ≡ₚ rows
}.

(** What leaves the module: the one query it runs. *)
Inductive Event : Type :=
  | InvoiceQuery (conn : Connection).

(** The module's state: its own [sql] and the events so far. *)
Record Store : Type := mkStore {
  sql : option Connection;
  trace : list Event
}.

Definition M (A : Type) : Type := Store → Result A * Store.

Definition ret {A} (a : A) : M A := λ s, (Ok a, s).

Definition throw {A} (e : JsError) : M A := λ s, (Throw e, s).

Definition bind {A B} (m : M A) (k : A → M B) : M B :=
  λ s, match m s with
       | (Ok a, s') => k a s'
       | (Throw e, s') => (Throw e, s')
       end.

Definition try_catch {A} (body : M A) (handler : JsError → M A) : M A :=
  λ s, match body s with
       | (Ok a, s') => (Ok a, s')
       | (Throw e, s') => handler e s'
       end.

(** A call that touches no state of the module. *)
Definition lift {A} (r : Result A) : M A := λ s, (r, s).

Definition get_sql : M (option Connection) := λ s, (Ok (sql s), s).

Definition set_sql (c : Connection) : M unit :=
  λ s, (Ok tt, {| sql := Some c; trace := trace s |}).

Definition emit (ev : Event) : M unit :=
  λ s, (Ok tt, {| sql := sql s; trace := trace s ++ [ev] |}).

Declare Scope route_scope.
Notation "'let*' x ':=' m 'in' k" := (bind m (λ x, k))
  (at level 10, x name, m at level 100, k at level 200, only parsing) : route_scope.
Local Open Scope route_scope.

(** The route's copy of [getDb], word for word the one of [auth.ts]. *)
Definition getDb `{Driver} (w : World) : M Connection :=
  let* cached := get_sql in
  match cached with
  | Some c => ret c
  | None =>
      match POSTGRES_URL w with
      | Some url =>
          if env_missing (Some url)
          then throw (Error "POSTGRES_URL environment variable is not set")
          else
            let* c := lift (postgres url "require") in
            let* _ := set_sql c in ret c
      | None => throw (Error "POSTGRES_URL environment variable is not set")
      end
  end.

(** [FROM invoices JOIN customers ON invoices.customer_id = customers.id]:
    every invoice paired with every customer it points to (listed here
    invoice by invoice; the order of the result is [row_order]'s). *)
Definition join_on (db : Database) : list (Invoice * Customer) :=
  i ← invoices db;
  c ← customers db;
  if decide (invoice_customer_id i = customer_id c) then [(i, c)] else [].

(** [WHERE invoices.amount = 666] *)
Definition where_amount (ic : Invoice * Customer) : Prop :=
  invoice_amount ic.1 = 666%Z.

(** [SELECT invoices.amount, customers.name] *)
Definition select_columns (ic : Invoice * Customer) : Row :=
  {| amount := invoice_amount ic.1; name := customer_name ic.2 |}.

(** The rows the query of [listInvoices] yields, as the database
    orders them. *)
Definition select_invoices (db : Database) : list Row :=
  row_order db (select_columns <$> filter where_amount (join_on db)).

Definition run_query (w : World) (db : Database) (c : Connection) : M (list Row) :=
  let* _ := emit (InvoiceQuery c) in
  match storage_fault w with
  | Some err => throw err
  | None => ret (select_invoices db)
  end.

Definition listInvoices `{Driver} (w : World) (db : Database) : M (list Row) :=
  let* c := getDb w in
  let* data := run_query w db c in
  ret data.

(** What [JSON.stringify] keeps of an error object: its own enumerable
    properties, so nothing of an error made by [new Error(message)]. *)
Definition own_enumerable (error : JsError) : list (string * JsValue) :=
  match error with
  | Error _ => []
  | LibraryError _ own => own
  end.

(** The body of a response, that is, the JSON text [Response.json]
    writes: the array of rows, or the object [{ "error": { ... } }] with
    the properties serialisation keeps of the error. *)
Inductive Body : Type :=
  | JsonRows (data : list Row)
  | JsonError (error : list (string * JsValue)).

Record Response : Type := mkResponse {
  status : nat;
  body : Body
}.

(** [Response.json(data, init)], given the serialised [data]: status 200
    unless [init] sets one. *)
Definition Response_json (data : Body) (init : option nat) : Response :=
  {| status := default 200%nat init; body := data |}.

Definition GET `{Driver} (w : World) (db : Database) : M Response :=
  try_catch
    (let* data := listInvoices w db in
     ret (Response_json (JsonRows data) None))
    (λ error,
       ret (Response_json (JsonError (own_enumerable error)) (Some 500%nat))).

(** The connection the route's [getDb] ends up with, if any. *)
Definition connection_of `{Driver} (w : World) (s : Store) : option Connection :=
  match sql s with
  | Some c => Some c
  | None => fresh_connection w
  end.

(** The invoices the query is about. *)
Definition billed_666 (db : Database) : list Invoice :=
  filter (λ i, invoice_amount i = 666%Z) (invoices db).

End Route.

(** * The login action

    [authenticate] of [app/lib/actions.ts], as the documentation quotes
    it: the server action behind the login form, a caller of [authorize]
    through NextAuth's [signIn]. *)
Module Actions.

(** What [signIn] can throw, as far as [authenticate] tells values
    apart: an [AuthError] with its [type], or anything else (the redirect
    signal of a successful sign-in included). *)
Inductive Thrown : Type :=
  | AuthError (type : string)
  | NotAuthError (e : JsError).

(** How a call of this module ends. *)
Inductive Outcome (A : Type) : Type :=
  | Returned (a : A)
  | Threw (t : Thrown).
Arguments Returned {A} a.
Arguments Threw {A} t.

(** The fields of the submitted form. *)
Abbreviation FormData := (gmap string string).

(** The object [authorize] receives for a form: every field a string. *)
Definition credentials_of (formData : FormData) : Credentials :=
  JsString <$> formData.

(** NextAuth, as far as the action uses it: [signIn('credentials',
    formData)], which runs in the world and on the store of [auth.ts]. *)
Class NextAuth : Type := {
  signIn : World → FormData → Store → Outcome unit * Store
}.

(** [authenticate(prevState, formData)]: [Returned None] is falling off
    the end of the function ([undefined]). *)
Definition authenticate `{NextAuth} (w : World) (prevState : option string)
    (formData : FormData) : Store → Outcome (option string) * Store :=
  λ s,
    match signIn w formData s with
    | (Returned _, s') => (Returned None, s')
    | (Threw error, s') =>
        match error with
        | AuthError type =>
            if bool_decide (type = "CredentialsSignin")
            then (Returned (Some "Invalid credentials."), s')
            else (Threw error, s')
        | NotAuthError _ => (Threw error, s')
        end
    end.

(** What the documentation says of [signIn]: when [authorize] returns
    no user it throws an [AuthError] of type [CredentialsSignin]. *)
Definition signIn_documented `{Libraries} `{Driver} `{NextAuth} (w : World) : Prop :=
  ∀ formData s,
    (authorize w (credentials_of formData) s).1 = Ok None →
    (signIn w formData s).1 = Threw (AuthError "CredentialsSignin").

End Actions.

(** ** A concrete scenario

    Stand-ins for the two packages and a small table, used to run the
    functions on the specification's scenarios. *)
Module Scenario.

(** A crude email grammar: something, an at-sign, something. *)
Fixpoint has_at (seen_local : bool) (s : string) : bool :=
  match s with
  | EmptyString => false
  | String a rest =>
      if Ascii.eqb a "@"%char
      then seen_local && negb (bool_decide (rest = ""))
      else has_at true rest
  end.

(** A transparent stand-in for bcrypt: the hash of [pw] is [pw] behind a
    fixed prefix. *)
Definition toy_hash (pw : string) : string := "$2b$10$" ++ pw.

#[export] Instance toy : Libraries := {
  is_email := has_at false;
  bcrypt_compare := λ data hash, bool_decide (hash = toy_hash data)
}.

(** A stand-in for the package's parser: a connection string is
    accepted when it starts with the scheme, and refused otherwise with
    the error Node's [URL] raises. *)
#[export] Instance toy_driver : Driver := {
  url_error := λ url,
    if String.prefix "postgres://" url then None
    else Some (LibraryError "Invalid URL"
                 [("code", JsString "ERR_INVALID_URL"); ("input", JsString url)])
}.

Definition alice : User :=
  {| user_id := "410544b2"; user_name := "User"; email := "user@example.com";
     password := toy_hash "123456" |}.

Definition alice_shadow : User :=
  {| user_id := "ffffffff"; user_name := "Shadow"; email := "user@example.com";
     password := toy_hash "qwerty-uiop" |}.

Definition bob : User :=
  {| user_id := "3958dc9e"; user_name := "Bob"; email := "bob@example.com";
     password := toy_hash "hunter22" |}.

Definition url : string := "postgres://db.example.com/dashboard".

(** The connection [postgres] makes of it. *)
Definition conn : Connection := {| conn_url := url; conn_ssl := "require" |}.

Definition online : World :=
  {| POSTGRES_URL := Some url; users := [bob; alice]; storage_fault := None |}.

Definition empty_table : World :=
  {| POSTGRES_URL := Some url; users := []; storage_fault := None |}.

Definition duplicated : World :=
  {| POSTGRES_URL := Some url; users := [alice; bob; alice_shadow];
     storage_fault := None |}.

Definition outage : World :=
  {| POSTGRES_URL := Some url; users := [bob; alice];
     storage_fault := Some (Error "connect ETIMEDOUT") |}.

Definition unconfigured : World :=
  {| POSTGRES_URL := None; users := [bob; alice]; storage_fault := None |}.

Definition misconfigured : World :=
  {| POSTGRES_URL := Some "not a url"; users := [bob; alice];
     storage_fault := None |}.

(** The module just loaded: no connection yet, nothing emitted. *)
Definition fresh : Store := {| sql := None; trace := [] |}.

Definition form (e p : string) : Credentials :=
  {[ "email" := JsString e; "password" := JsString p ]}.

End Scenario.

(** ** More scenarios: the route's tables, a stand-in for NextAuth *)
Module Scenario2.
Import Scenario.

Definition acme : Route.Customer :=
  {| Route.customer_id := "d6e15727"; Route.customer_name := "Acme" |}.

Definition initech : Route.Customer :=
  {| Route.customer_id := "3958dc9e"; Route.customer_name := "Initech" |}.

Definition invoice (cid : string) (a : Z) : Route.Invoice :=
  {| Route.invoice_customer_id := cid; Route.invoice_amount := a |}.

(** Two invoices of 666 for Acme, one of another amount for Initech, and
    one of 666 that points to no customer. *)
Definition ledger : Route.Database :=
  {| Route.invoices := [invoice "d6e15727" 666; invoice "3958dc9e" 15795;
                        invoice "d6e15727" 666; invoice "00000000" 666];
     Route.customers := [acme; initech];
     Route.row_order := reverse;
     Route.row_order_perm := reverse_Permutation |}.

(** The same without the dangling invoice. *)
Definition sound_ledger : Route.Database :=
  {| Route.invoices := [invoice "d6e15727" 666; invoice "3958dc9e" 15795;
                        invoice "d6e15727" 666];
     Route.customers := [acme; initech];
     Route.row_order := λ rows, rows;
     Route.row_order_perm := λ rows, reflexivity rows |}.

Definition idle : Route.Store := {| Route.sql := None; Route.trace := [] |}.

(** A [signIn] that follows the documented flow: redirect when
    [authorize] returns a user, [CredentialsSignin] when it returns null,
    a wrapped error when it throws. *)
#[export] Instance toy_auth : Actions.NextAuth := {
  Actions.signIn := λ w formData s,
    match authorize w (Actions.credentials_of formData) s with
    | (Ok (Some _), s') => (Actions.Threw (Actions.NotAuthError (Error "NEXT_REDIRECT")), s')
    | (Ok None, s') => (Actions.Threw (Actions.AuthError "CredentialsSignin"), s')
    | (Throw _, s') => (Actions.Threw (Actions.AuthError "CallbackRouteError"), s')
    end
}.

Definition login (e p : string) : Actions.FormData :=
  {[ "email" := e; "password" := p; "callbackUrl" := "/dashboard" ]}.

(** The database refuses connections, as the client reports it. *)
Definition refused : World :=
  {| POSTGRES_URL := Some url; users := [bob; alice];
     storage_fault := Some (LibraryError "connect ECONNREFUSED"
                              [("code", JsString "ECONNREFUSED")]) |}.

(** A store in which the connection is already cached. *)
Definition warm : Store := {| sql := Some conn; trace := [] |}.

End Scenario2.

(** * Properties *)

(** ** The monad and the table *)

Definition config_error : JsError :=
  Error "POSTGRES_URL environment variable is not set".

Definition fetch_error : JsError := Error "Failed to fetch user.".

(** The store after [getUser] ran its query on connection [c]. *)
Definition queried (s : Store) (c : Connection) (e : string) : Store :=
  {| sql := Some c; trace := trace s ++ [SqlQuery c e] |}.

(** Appending one event to the trace of a store. *)
Definition logged (s : Store) (ev : Event) : Store :=
  {| sql := sql s; trace := trace s ++ [ev] |}.

Lemma select_nil (w : World) (e : string) :
  (∀ u, u ∈ users w → email u ≠ e) → select_users_by_email w e = [].
Proof.
  unfold select_users_by_email. induction (users w) as [|x l IH]; intros Hno.
  - done.
  - rewrite filter_cons_False.
    + apply IH. intros u Hu. apply Hno. by right.
    + apply Hno. by left.
Qed.

Lemma select_elem (w : World) (e : string) (u : User) :
  u ∈ select_users_by_email w e ↔ email u = e ∧ u ∈ users w.
Proof. unfold select_users_by_email. by rewrite list_elem_of_filter. Qed.

Lemma select_head_elem (w : World) (e : string) (u : User) :
  head (select_users_by_email w e) = Some u → email u = e ∧ u ∈ users w.
Proof. intros Hh. apply select_elem. by apply head_Some_elem_of. Qed.

(** Under the uniqueness invariant the query yields the one record stored
    for the email. *)
Lemma select_unique (w : World) (e : string) (u : User) :
  unique_emails w → u ∈ users w → email u = e →
  select_users_by_email w e = [u].
Proof.
  unfold unique_emails, select_users_by_email.
  induction (users w) as [|x l IH]; intros Hnd Hin He.
  - by apply elem_of_nil in Hin.
  - rewrite fmap_cons in Hnd. apply NoDup_cons in Hnd as [Hx Hnd].
    apply elem_of_cons in Hin as [->|Hin].
    + rewrite filter_cons_True by done. f_equal.
      clear IH. induction l as [|y l IHl]; [done|].
      rewrite fmap_cons in Hx, Hnd.
      apply not_elem_of_cons in Hx as [Hy Hx].
      apply NoDup_cons in Hnd as [_ Hnd].
      rewrite filter_cons_False by congruence. by apply IHl.
    + rewrite filter_cons_False; [by apply IH|].
      intros Hxe. apply Hx. rewrite Hxe, <- He. by apply list_elem_of_fmap_2.
Qed.

Lemma queries_snoc (t : list Event) (ev : Event) :
  queries (t ++ [ev]) = (queries t + if is_query ev then 1 else 0)%nat.
Proof.
  unfold queries. rewrite filter_app, length_app. f_equal.
  destruct (is_query ev) eqn:Hev.
  - by rewrite filter_cons_True.
  - rewrite filter_cons_False; [done|]. by rewrite Hev.
Qed.

Lemma comparisons_snoc (t : list Event) (ev : Event) :
  comparisons (t ++ [ev]) = (comparisons t + if is_compare ev then 1 else 0)%nat.
Proof.
  unfold comparisons. rewrite filter_app, length_app. f_equal.
  destruct (is_compare ev) eqn:Hev.
  - by rewrite filter_cons_True.
  - rewrite filter_cons_False; [done|]. by rewrite Hev.
Qed.

(** ** [getDb] and [getUser], case by case *)

Section Lookup.
Context `{Driver}.

Lemma postgres_ok (url ssl : string) (c : Connection) :
  postgres url ssl = Ok c → c = {| conn_url := url; conn_ssl := ssl |}.
Proof. unfold postgres. destruct (url_error url); [done|]. by intros [= <-]. Qed.

Lemma init_error_missing (w : World) :
  env_missing (POSTGRES_URL w) = true → init_error w = config_error.
Proof.
  unfold init_error. destruct (POSTGRES_URL w) as [u|]; [|done]. by intros ->.
Qed.

(** The error is the configuration error, or the one [postgres] threw. *)
Lemma init_error_cases (w : World) :
  init_error w = config_error ∨
  ∃ url err, POSTGRES_URL w = Some url ∧ postgres url "require" = Throw err ∧
             init_error w = err.
Proof.
  unfold init_error. destruct (POSTGRES_URL w) as [u|]; [|by left].
  destruct (env_missing (Some u)); [by left|].
  destruct (postgres u "require") as [c|err] eqn:Hp; [by left|].
  right. by exists u, err.
Qed.

Lemma fresh_connection_same_env (w w' : World) :
  POSTGRES_URL w = POSTGRES_URL w' → fresh_connection w = fresh_connection w'.
Proof. unfold fresh_connection. by intros ->. Qed.

Lemma getDb_run (w : World) (s : Store) :
  getDb w s =
  match connection_of w s with
  | Some c => (Ok c, {| sql := Some c; trace := trace s |})
  | None => (Throw (init_error w), s)
  end.
Proof.
  unfold getDb, connection_of, fresh_connection, init_error, bind, get_sql,
    throw, lift.
  destruct s as [[c|] t]; simpl; [done|].
  destruct (POSTGRES_URL w) as [u|]; [|done].
  destruct (bool_decide (u = "")); [done|].
  by destruct (postgres u "require").
Qed.

Lemma getUser_available (w : World) (s : Store) (e : string) (c : Connection) :
  storage_fault w = None → connection_of w s = Some c →
  getUser w e s = (Ok (head (select_users_by_email w e)), queried s c e).
Proof.
  intros Hup Hc. unfold getUser, try_catch, bind at 1.
  rewrite getDb_run, Hc. unfold run_query, bind, emit, ret. simpl. by rewrite Hup.
Qed.

Lemma getUser_fault (w : World) (s : Store) (e : string) (c : Connection) (err : JsError) :
  storage_fault w = Some err → connection_of w s = Some c →
  getUser w e s =
  (Throw fetch_error,
   logged (queried s c e) (ConsoleError "Failed to fetch user:" err)).
Proof.
  intros Hup Hc. unfold getUser, try_catch, bind at 1.
  rewrite getDb_run, Hc. unfold run_query, bind, emit, throw. simpl. by rewrite Hup.
Qed.

Lemma getUser_unconfigured (w : World) (s : Store) (e : string) :
  connection_of w s = None →
  getUser w e s =
  (Throw fetch_error, logged s (ConsoleError "Failed to fetch user:" (init_error w))).
Proof.
  intros Hc. unfold getUser, try_catch, bind at 1.
  by rewrite getDb_run, Hc.
Qed.

End Lookup.

(** ** Schema validation against the specification's wording *)

Section Validation.
Context `{Libraries} `{Driver}.

Lemma safeParse_valid (credentials : Credentials) (e p : string) :
  safeParse credentials = Some {| data_email := e; data_password := p |} ↔
  valid_shaped credentials e p.
Proof.
  unfold safeParse, valid_shaped, prop, z_string, min. split.
  - destruct (credentials !! "email") as [[| | | |e'|]|]; simpl; try done.
    destruct (is_email e') eqn:He; [|done].
    destruct (credentials !! "password") as [[| | | |p'|]|]; simpl; try done.
    case_bool_decide; [|done]. intros [= -> ->]. done.
  - intros (He & Hg & Hp & Hlen). rewrite He, Hp. simpl.
    by rewrite Hg, bool_decide_eq_true_2.
Qed.

Lemma safeParse_malformed (credentials : Credentials) :
  safeParse credentials = None ↔ Malformed credentials.
Proof.
  split.
  - unfold safeParse, prop, z_string, min.
    destruct (credentials !! "email") as [v|] eqn:Hev; [|intros _; by apply missing_email].
    destruct (is_string v) eqn:Hv; [|intros _; by eapply email_wrong_type].
    destruct v as [| | | |e|]; try done. simpl.
    destruct (is_email e) eqn:He; [|intros _; by eapply email_bad_grammar].
    destruct (credentials !! "password") as [v|] eqn:Hpv;
      [|intros _; by apply missing_password].
    destruct (is_string v) eqn:Hv'; [|intros _; by eapply password_wrong_type].
    destruct v as [| | | |p|]; try done. simpl.
    case_bool_decide; [done|]. intros _. eapply password_too_short; [done|lia].
  - unfold safeParse, prop, z_string, min.
    destruct 1 as [He|Hp|v He Hv|v Hp Hv|e He Hg|p Hp Hlen].
    + by rewrite He.
    + rewrite Hp. simpl. by repeat case_match.
    + rewrite He. by destruct v.
    + rewrite Hp. destruct v; try done; simpl; by repeat case_match.
    + rewrite He. simpl. by rewrite Hg.
    + rewrite Hp. simpl. rewrite bool_decide_eq_false_2 by lia. by repeat case_match.
Qed.

(** ** [authorize], case by case *)

Lemma authorize_invalid (w : World) (credentials : Credentials) (s : Store) :
  safeParse credentials = None →
  authorize w credentials s = (Ok None, logged s (ConsoleLog "Invalid credentials")).
Proof. intros Hp. unfold authorize. by rewrite Hp. Qed.

Lemma authorize_no_row (w : World) (credentials : Credentials) (s : Store)
    (data : ParsedData) (c : Connection) :
  safeParse credentials = Some data →
  storage_fault w = None → connection_of w s = Some c →
  head (select_users_by_email w (data_email data)) = None →
  authorize w credentials s = (Ok None, queried s c (data_email data)).
Proof.
  intros Hp Hup Hc Hrow. unfold authorize. rewrite Hp. unfold bind.
  by rewrite (getUser_available _ _ _ c), Hrow.
Qed.

Lemma authorize_row (w : World) (credentials : Credentials) (s : Store)
    (data : ParsedData) (c : Connection) (u : User) :
  safeParse credentials = Some data →
  storage_fault w = None → connection_of w s = Some c →
  head (select_users_by_email w (data_email data)) = Some u →
  authorize w credentials s =
  let s' := logged (queried s c (data_email data))
                   (BcryptCompare (data_password data) (password u)) in
  if bcrypt_compare (data_password data) (password u)
  then (Ok (Some u), s')
  else (Ok None, logged s' (ConsoleLog "Invalid credentials")).
Proof.
  intros Hp Hup Hc Hrow. unfold authorize. rewrite Hp. unfold bind at 1.
  rewrite (getUser_available _ _ _ c), Hrow by done.
  unfold compare, bind, emit, ret. simpl.
  by destruct (bcrypt_compare _ _).
Qed.

Lemma authorize_throws (w : World) (credentials : Credentials) (s : Store)
    (data : ParsedData) :
  safeParse credentials = Some data →
  (is_Some (storage_fault w) ∨ connection_of w s = None) →
  (authorize w credentials s).1 = Throw fetch_error.
Proof.
  intros Hp Hbad. unfold authorize. rewrite Hp. unfold bind.
  destruct (connection_of w s) as [c|] eqn:Hc.
  - destruct Hbad as [[err Herr]|]; [|done].
    by rewrite (getUser_fault _ _ _ c err).
  - by rewrite getUser_unconfigured.
Qed.

End Validation.

(** ** The authentication outcomes *)

Section Outcomes.
Context `{Libraries} `{Driver}.

(** C1. For every valid-shaped input (email matching the grammar,
    password of at least six characters) whose email matches a stored
    record and whose password verifies against that record's hash,
    [authorize] returns that user, and the email of the user returned is
    the email that was submitted.  Storage is assumed to answer and the
    table to satisfy the data model's uniqueness of emails. *)
Theorem authorize_authenticates (w : World) (s : Store)
    (credentials : Credentials) (e p : string) (u : User) :
  valid_shaped credentials e p →
  storage_available w s → unique_emails w →
  u ∈ users w → email u = e → bcrypt_compare p (password u) = true →
  ∃ user, (authorize w credentials s).1 = Ok (Some user) ∧ user = u ∧
          credentials !! "email" = Some (JsString (email user)).
Proof.
  intros Hv [Hup [c Hc]] Huniq Hin He Hpw.
  pose proof Hv as (Hemail & _). apply safeParse_valid in Hv.
  exists u. rewrite (authorize_row w _ s _ c u Hv Hup Hc); simpl.
  - rewrite Hpw, He. done.
  - by rewrite (select_unique w e u).
Qed.

(** C2. For every valid-shaped input, if no record is stored for the
    email, or one is stored but the password fails verification against
    its hash, [authorize] returns null (Rejected).  Storage is assumed to
    answer; in the second case the table satisfies the uniqueness of
    emails. *)
Theorem authorize_rejects (w : World) (s : Store)
    (credentials : Credentials) (e p : string) :
  valid_shaped credentials e p →
  storage_available w s →
  (∀ u, u ∈ users w → email u ≠ e) ∨
  (unique_emails w ∧
   ∃ u, u ∈ users w ∧ email u = e ∧ bcrypt_compare p (password u) = false) →
  (authorize w credentials s).1 = Ok None.
Proof.
  intros Hv [Hup [c Hc]] Hcase. apply safeParse_valid in Hv.
  destruct Hcase as [Hnone|(Huniq & u & Hin & He & Hpw)].
  - rewrite (authorize_no_row w _ s _ c Hv Hup Hc); [done|].
    simpl. by rewrite select_nil.
  - rewrite (authorize_row w _ s _ c u Hv Hup Hc); simpl.
    + by rewrite Hpw.
    + by rewrite (select_unique w e u).
Qed.

(** C3. For every raw input that misses the email field, misses the
    password field, holds a value of the wrong type in either, holds an
    email outside the grammar or a password shorter than six characters,
    [authorize] returns null after logging the one line
    "Invalid credentials": the same result whichever constraint failed. *)
Theorem authorize_malformed (w : World) (s : Store) (credentials : Credentials) :
  Malformed credentials →
  authorize w credentials s =
  (Ok None, logged s (ConsoleLog "Invalid credentials")).
Proof. intros Hm. apply authorize_invalid. by apply safeParse_malformed. Qed.

(** C4 (amended). Every invocation of [authorize] ends in exactly one of
    three ways: it returns a user, it returns null, or it throws the
    error "Failed to fetch user.".  Malformed input gets null, the very
    value a rejection gets, so the value returned does not tell the two
    apart. *)
Theorem authorize_outcomes (w : World) (s : Store) (credentials : Credentials) :
  ((∃ u, (authorize w credentials s).1 = Ok (Some u)) ∨
   (authorize w credentials s).1 = Ok None ∨
   (authorize w credentials s).1 = Throw fetch_error) ∧
  (safeParse credentials = None → (authorize w credentials s).1 = Ok None).
Proof.
  split; [|intros Hp; by rewrite authorize_invalid].
  destruct (safeParse credentials) as [data|] eqn:Hp;
    [|right; left; by rewrite authorize_invalid].
  destruct (storage_fault w) as [err|] eqn:Hup.
  { right; right. eapply authorize_throws; [done|]. left. by exists err. }
  destruct (connection_of w s) as [c|] eqn:Hc.
  2:{ right; right. eapply authorize_throws; [done|]. by right. }
  destruct (head (select_users_by_email w (data_email data))) as [u|] eqn:Hrow.
  - rewrite (authorize_row w _ s _ c u Hp Hup Hc Hrow). simpl.
    destruct (bcrypt_compare _ _); [left; by exists u|right; by left].
  - right; left. by rewrite (authorize_no_row w _ s _ c Hp Hup Hc Hrow).
Qed.

(** C5 (amended). Whenever [authorize] returns a user, that user is the
    stored row itself, unchanged: a record of the table, the first the
    query yields for the submitted email, whose [password] field is the
    stored hash the submitted password was verified against. *)
Theorem authorize_returns_stored_row (w : World) (s : Store)
    (credentials : Credentials) (u : User) :
  (authorize w credentials s).1 = Ok (Some u) →
  u ∈ users w ∧
  ∃ e p, valid_shaped credentials e p ∧
         head (select_users_by_email w e) = Some u ∧
         bcrypt_compare p (password u) = true.
Proof.
  intros Hret.
  destruct (safeParse credentials) as [[e p]|] eqn:Hp;
    [|by rewrite authorize_invalid in Hret].
  destruct (storage_fault w) as [err|] eqn:Hup.
  { rewrite (authorize_throws w _ s _ Hp) in Hret; [done|]. left. by exists err. }
  destruct (connection_of w s) as [c|] eqn:Hc.
  2:{ rewrite (authorize_throws w _ s _ Hp) in Hret; [done|]. by right. }
  destruct (head (select_users_by_email w e)) as [r|] eqn:Hrow.
  2:{ by rewrite (authorize_no_row w _ s _ c Hp Hup Hc Hrow) in Hret. }
  rewrite (authorize_row w _ s _ c r Hp Hup Hc Hrow) in Hret. simpl in Hret.
  destruct (bcrypt_compare p (password r)) eqn:Hpw; [|done].
  injection Hret as ->. split.
  - by apply (select_head_elem w e).
  - exists e, p. by rewrite <- safeParse_valid.
Qed.

(** C6 (amended). For every valid-shaped input whose email matches no
    stored record, [authorize] returns null right after the query: no
    hash comparison is performed on that path, and nothing is logged. *)
Theorem authorize_unknown_email (w : World) (s : Store)
    (credentials : Credentials) (e p : string) :
  valid_shaped credentials e p →
  storage_available w s →
  (∀ u, u ∈ users w → email u ≠ e) →
  ∃ c, connection_of w s = Some c ∧
       authorize w credentials s = (Ok None, queried s c e) ∧
       comparisons (trace (authorize w credentials s).2) = comparisons (trace s).
Proof.
  intros Hv [Hup [c Hc]] Hnone. apply safeParse_valid in Hv.
  exists c. split; [done|].
  rewrite (authorize_no_row w _ s _ c Hv Hup Hc); simpl.
  - split; [done|]. rewrite comparisons_snoc. simpl. lia.
  - by rewrite select_nil.
Qed.

(** C7. While the storage layer is failing, every call of [getUser]
    throws the error "Failed to fetch user." (after reporting the cause
    on the console), which is not the "not found" result; [authorize]
    lets it through for every input that passes validation, and the only
    inputs for which it still returns null are those that fail
    validation and never reach the lookup. *)
Theorem storage_failure_propagates (w : World) (s : Store) (err : JsError) :
  storage_fault w = Some err →
  (∀ e, (getUser w e s).1 = Throw fetch_error ∧ (getUser w e s).1 ≠ Ok None ∧
        ∃ cause, last (trace (getUser w e s).2) =
                 Some (ConsoleError "Failed to fetch user:" cause)) ∧
  (∀ credentials data, safeParse credentials = Some data →
     (authorize w credentials s).1 = Throw fetch_error) ∧
  (∀ credentials, (authorize w credentials s).1 = Ok None →
     safeParse credentials = None).
Proof.
  intros Hfault. split; [|split].
  - intros e. destruct (connection_of w s) as [c|] eqn:Hc.
    + rewrite (getUser_fault w s e c err Hfault Hc). simpl.
      repeat split; [done|]. exists err. by rewrite last_snoc.
    + rewrite (getUser_unconfigured w s e Hc). simpl.
      repeat split; [done|]. exists (init_error w). by rewrite last_snoc.
  - intros credentials data Hp. eapply authorize_throws; [done|].
    left. by exists err.
  - intros credentials Hret.
    destruct (safeParse credentials) as [data|] eqn:Hp; [|done].
    rewrite (authorize_throws w _ s data Hp) in Hret; [done|].
    left. by exists err.
Qed.

(** C8. Validation is a pure function of the input and comes first: an
    invocation of [authorize] on input that fails validation leaves the
    connection variable as it was, runs no storage query and no hash
    comparison, and emits nothing but the log line. *)
Theorem validation_precedes_storage (w : World) (s : Store)
    (credentials : Credentials) :
  safeParse credentials = None →
  sql (authorize w credentials s).2 = sql s ∧
  queries (trace (authorize w credentials s).2) = queries (trace s) ∧
  comparisons (trace (authorize w credentials s).2) = comparisons (trace s) ∧
  trace (authorize w credentials s).2 =
    (trace s ++ [ConsoleLog "Invalid credentials"])%list.
Proof.
  intros Hp. rewrite (authorize_invalid w _ s Hp). simpl.
  rewrite queries_snoc, comparisons_snoc. simpl. repeat split; lia.
Qed.

End Outcomes.

(** ** The connection and the lookup *)

Section Connection.
Context `{Driver}.

(** C9. A failed initialisation leaves the connection state as it was:
    with no cached connection and [POSTGRES_URL] unset (or empty),
    [getDb] throws and the store is unchanged, so a later call, made once
    the variable is set, does what a first call would: given a
    connection string [postgres] accepts, it creates the connection and
    caches it; given one [postgres] refuses, it throws that error and
    still caches nothing. *)
Theorem getDb_failed_init_retry (w w' : World) (s : Store) (url : string) :
  sql s = None → env_missing (POSTGRES_URL w) = true →
  POSTGRES_URL w' = Some url → url ≠ "" →
  getDb w s = (Throw config_error, s) ∧
  sql (getDb w s).2 = None ∧
  getDb w' (getDb w s).2 = getDb w' s ∧
  (∀ c, postgres url "require" = Ok c →
     getDb w' (getDb w s).2 = (Ok c, {| sql := Some c; trace := trace s |}) ∧
     c = {| conn_url := url; conn_ssl := "require" |}) ∧
  (∀ err, postgres url "require" = Throw err →
     getDb w' (getDb w s).2 = (Throw err, s)).
Proof.
  intros Hsql Hmiss Hurl Hne.
  assert (getDb w s = (Throw config_error, s)) as ->.
  { rewrite getDb_run. unfold connection_of, fresh_connection. rewrite Hsql.
    rewrite <- (init_error_missing w Hmiss).
    destruct (POSTGRES_URL w) as [u|]; [|done]. by rewrite Hmiss. }
  simpl. split_and!; [done|done|done| |].
  - intros c Hpg. split; [|by apply postgres_ok].
    rewrite getDb_run. unfold connection_of, fresh_connection.
    rewrite Hsql, Hurl. simpl. by rewrite bool_decide_eq_false_2, Hpg.
  - intros err Hpg. rewrite getDb_run.
    unfold connection_of, fresh_connection, init_error.
    rewrite Hsql, Hurl. simpl. by rewrite bool_decide_eq_false_2, Hpg.
Qed.

(** C10. When storage answers, [getUser] returns undefined, not an
    error, if the query yields no row; if it yields one row or more it
    returns the first and drops the others without a word: the only
    event is the query itself.  Nothing checks that the row is alone. *)
Theorem getUser_first_row (w : World) (s : Store) (e : string) :
  storage_available w s →
  (select_users_by_email w e = [] → (getUser w e s).1 = Ok None) ∧
  (∀ r rest, select_users_by_email w e = r :: rest →
     (getUser w e s).1 = Ok (Some r)) ∧
  ∃ c, connection_of w s = Some c ∧
       trace (getUser w e s).2 = (trace s ++ [SqlQuery c e])%list.
Proof.
  intros [Hup [c Hc]]. rewrite (getUser_available w s e c Hup Hc). simpl.
  split; [by intros ->|]. split; [by intros r rest ->|]. by exists c.
Qed.

(** ** Repeating a call *)

(** Once a connection is cached, [getDb] hands it back whatever the
    environment says: the variable is read by the first successful call
    only. *)
Theorem getDb_cached (w w' : World) (s : Store) (c : Connection) :
  (getDb w s).1 = Ok c →
  sql (getDb w s).2 = Some c ∧
  getDb w' (getDb w s).2 = (Ok c, (getDb w s).2).
Proof.
  rewrite (getDb_run w s). destruct (connection_of w s) as [c'|] eqn:Hc; [|done].
  simpl. intros [= ->]. split; [done|]. by rewrite getDb_run.
Qed.

End Connection.

Section Idempotence.
Context `{Libraries} `{Driver}.

Lemma connection_of_authorize (w : World) (s : Store) (credentials : Credentials) :
  connection_of w (authorize w credentials s).2 = connection_of w s.
Proof.
  destruct (safeParse credentials) as [data|] eqn:Hp;
    [|by rewrite authorize_invalid].
  unfold authorize. rewrite Hp. unfold bind at 1.
  destruct (connection_of w s) as [c|] eqn:Hc.
  - destruct (storage_fault w) as [err|] eqn:Hup.
    + by rewrite (getUser_fault w s _ c err).
    + rewrite (getUser_available w s _ c) by done.
      destruct (head _) as [u|]; [|done].
      unfold compare, bind, emit, ret, invalid_credentials. simpl.
      by destruct (bcrypt_compare _ _).
  - by rewrite getUser_unconfigured.
Qed.

Lemma authorize_result_ext (w : World) (s1 s2 : Store) (credentials : Credentials) :
  connection_of w s1 = connection_of w s2 →
  (authorize w credentials s1).1 = (authorize w credentials s2).1.
Proof.
  intros Hsame.
  destruct (safeParse credentials) as [data|] eqn:Hp;
    [|by rewrite !authorize_invalid].
  destruct (storage_fault w) as [err|] eqn:Hup.
  { rewrite !(authorize_throws w _ _ data Hp); eauto. }
  destruct (connection_of w s2) as [c|] eqn:Hc.
  2:{ rewrite !(authorize_throws w _ _ data Hp); eauto. }
  destruct (head (select_users_by_email w (data_email data))) as [u|] eqn:Hrow.
  - rewrite (authorize_row w _ s1 data c u), (authorize_row w _ s2 data c u) by done.
    simpl. by destruct (bcrypt_compare _ _).
  - by rewrite (authorize_no_row w _ s1 data c), (authorize_no_row w _ s2 data c).
Qed.

(** Idempotence: against an unchanged world, a second identical call of
    [authorize], run in the store the first one left, ends as the first
    did. *)
Theorem authorize_idempotent (w : World) (s : Store) (credentials : Credentials) :
  (authorize w credentials (authorize w credentials s).2).1 =
  (authorize w credentials s).1.
Proof. apply authorize_result_ext, connection_of_authorize. Qed.

End Idempotence.

(** ** What [authorize] reads, emits and leaves behind *)

Lemma queries_app (t t' : list Event) : queries (t ++ t') = (queries t + queries t')%nat.
Proof. unfold queries. by rewrite filter_app, length_app. Qed.

Lemma comparisons_app (t t' : list Event) :
  comparisons (t ++ t') = (comparisons t + comparisons t')%nat.
Proof. unfold comparisons. by rewrite filter_app, length_app. Qed.

Section Effects.
Context `{Libraries} `{Driver}.

Lemma connection_of_same_env (w w' : World) (s : Store) :
  POSTGRES_URL w = POSTGRES_URL w' → connection_of w s = connection_of w' s.
Proof.
  intros Henv. unfold connection_of. by rewrite (fresh_connection_same_env w w').
Qed.

Lemma connection_of_cached (w : World) (s : Store) (c : Connection) :
  sql s = Some c → connection_of w s = Some c.
Proof. unfold connection_of. by intros ->. Qed.

Lemma safeParse_fields (c1 c2 : Credentials) :
  c1 !! "email" = c2 !! "email" → c1 !! "password" = c2 !! "password" →
  safeParse c1 = safeParse c2.
Proof. unfold safeParse, prop. by intros -> ->. Qed.

(** The events one call adds to the trace, path by path. *)
Lemma authorize_emits (w : World) (s : Store) (credentials : Credentials) :
  ∃ new, trace (authorize w credentials s).2 = (trace s ++ new)%list ∧
    (new = [ConsoleLog "Invalid credentials"] ∨
     new = [ConsoleError "Failed to fetch user:" (init_error w)] ∨
     (∃ c e err, storage_fault w = Some err ∧
        new = [SqlQuery c e; ConsoleError "Failed to fetch user:" err]) ∨
     (∃ c e, new = [SqlQuery c e]) ∨
     (∃ c e p u, new = [SqlQuery c e; BcryptCompare p (password u)]) ∨
     (∃ c e p u, new = [SqlQuery c e; BcryptCompare p (password u);
                        ConsoleLog "Invalid credentials"])).
Proof.
  destruct (safeParse credentials) as [data|] eqn:Hp.
  2:{ rewrite authorize_invalid by done. eexists. split; [done|]. by left. }
  destruct (connection_of w s) as [c|] eqn:Hc.
  2:{ unfold authorize. rewrite Hp. unfold bind. rewrite getUser_unconfigured by done.
      eexists. split; [done|]. right; by left. }
  destruct (storage_fault w) as [err|] eqn:Hup.
  { unfold authorize. rewrite Hp. unfold bind.
    rewrite (getUser_fault w s _ c err) by done. simpl.
    eexists. split; [by rewrite <- app_assoc|]. do 2 right; left. by exists c, (data_email data), err. }
  destruct (head (select_users_by_email w (data_email data))) as [u|] eqn:Hrow.
  - rewrite (authorize_row w _ s data c u) by done. simpl.
    destruct (bcrypt_compare _ _); simpl; eexists; (split; [by rewrite <- ?app_assoc|]).
    + do 4 right; left. by exists c, (data_email data), (data_password data), u.
    + do 5 right. by exists c, (data_email data), (data_password data), u.
  - rewrite (authorize_no_row w _ s data c) by done. simpl.
    eexists. split; [done|]. do 3 right; left. by exists c, (data_email data).
Qed.

(** X3. [authorize] looks at two fields only: inputs that agree on [email]
    and [password] are treated alike, whatever else they carry (zod's
    object schema drops unknown keys). *)
Theorem authorize_ignores_other_fields (w : World) (s : Store) (c1 c2 : Credentials) :
  c1 !! "email" = c2 !! "email" → c1 !! "password" = c2 !! "password" →
  authorize w c1 s = authorize w c2 s.
Proof.
  intros He Hp. unfold authorize. by rewrite (safeParse_fields c1 c2 He Hp).
Qed.

(** X4. With a connection cached, [authorize] no longer reads the
    environment: two worlds with the same table and the same health give
    the same result and the same store, whatever [POSTGRES_URL] holds. *)
Theorem authorize_cached_ignores_env (w w' : World) (s : Store)
    (credentials : Credentials) :
  is_Some (sql s) → users w = users w' → storage_fault w = storage_fault w' →
  authorize w credentials s = authorize w' credentials s.
Proof.
  intros [c Hc] Hu Hf. unfold authorize.
  destruct (safeParse credentials) as [data|]; [|done].
  unfold bind at 1 3.
  assert (getUser w (data_email data) s = getUser w' (data_email data) s) as ->; [|done].
  pose proof (connection_of_cached w s c Hc) as Hw.
  pose proof (connection_of_cached w' s c Hc) as Hw'.
  destruct (storage_fault w) as [err|] eqn:Hup; symmetry in Hf.
  - by rewrite (getUser_fault w s _ c err), (getUser_fault w' s _ c err).
  - rewrite (getUser_available w s _ c), (getUser_available w' s _ c) by done.
    unfold select_users_by_email. by rewrite Hu.
Qed.

(** X5. No function of the file replaces or drops a cached connection. *)
Theorem cached_connection_kept (w : World) (s : Store) (c : Connection) :
  sql s = Some c →
  sql (getDb w s).2 = Some c ∧
  (∀ e, sql (getUser w e s).2 = Some c) ∧
  (∀ credentials, sql (authorize w credentials s).2 = Some c).
Proof.
  intros Hsql. pose proof (connection_of_cached w s c Hsql) as Hc.
  assert (∀ e, sql (getUser w e s).2 = Some c) as Hget.
  { intros e. destruct (storage_fault w) as [err|] eqn:Hup.
    - by rewrite (getUser_fault w s e c err).
    - by rewrite (getUser_available w s e c). }
  split; [by rewrite getDb_run, Hc|]. split; [done|].
  intros credentials.
  destruct (safeParse credentials) as [data|] eqn:Hp;
    [|by rewrite authorize_invalid].
  unfold authorize. rewrite Hp. unfold bind at 1.
  specialize (Hget (data_email data)).
  destruct (getUser w (data_email data) s) as [[[u|]|err] s'] eqn:Hg; simpl in *; try done.
  unfold compare, bind, emit, ret, invalid_credentials. simpl.
  by destruct (bcrypt_compare _ _).
Qed.

(** X6. The outcome of a call does not depend on the calls made before it,
    whatever world they ran in and however they ended (a fault, a
    rejection, a success), as long as the variable has not changed. *)
Theorem authorize_unaffected_by_earlier_call (w w' : World) (s : Store)
    (earlier credentials : Credentials) :
  POSTGRES_URL w = POSTGRES_URL w' →
  (authorize w' credentials (authorize w earlier s).2).1 =
  (authorize w' credentials s).1.
Proof.
  intros Henv. apply authorize_result_ext.
  rewrite <- !(connection_of_same_env w w' _ Henv). apply connection_of_authorize.
Qed.

(** X7. Nothing of the credentials reaches the console: the lines a call
    prints are the fixed rejection line and the lookup failure with its
    cause, which is the configuration error or an error of the storage
    client (the fault of the query, or what [postgres] threw for the
    connection string). *)
Theorem authorize_console_output (w : World) (s : Store) (credentials : Credentials) :
  ∃ new, trace (authorize w credentials s).2 = (trace s ++ new)%list ∧
    ∀ ev, ev ∈ new → is_console ev = true →
      ev = ConsoleLog "Invalid credentials" ∨
      ev = ConsoleError "Failed to fetch user:" config_error ∨
      (∃ err, storage_fault w = Some err ∧
              ev = ConsoleError "Failed to fetch user:" err) ∨
      (∃ url err, POSTGRES_URL w = Some url ∧ postgres url "require" = Throw err ∧
                  ev = ConsoleError "Failed to fetch user:" err).
Proof.
  destruct (authorize_emits w s credentials) as (new & Htrace & Hshape).
  exists new. split; [done|]. intros ev Hin Hcons.
  destruct Hshape as [->|[->|[(c & e & err & Hf & ->)|[(c & e & ->)|
    [(c & e & p & u & ->)|(c & e & p & u & ->)]]]]];
    repeat (apply elem_of_cons in Hin as [->|Hin]); try done;
    try (by apply elem_of_nil in Hin).
  - by left.
  - destruct (init_error_cases w) as [->|(url & err & Hurl & Hpg & ->)].
    + right; by left.
    + do 3 right. by exists url, err.
  - do 2 right; left. by exists err.
  - by left.
Qed.

(** X8. One call makes at most one storage round trip and at most one hash
    comparison, the comparison only after the round trip: the queries
    and comparisons a call adds to the trace are, in the order they
    happen, none, one query, or one query followed by one comparison.
    The round trip happens whenever the input is valid-shaped and a
    connection can be had, even if the query then fails. *)
Theorem authorize_round_trips (w : World) (s : Store) (credentials : Credentials) :
  (queries (trace (authorize w credentials s).2) ≤ queries (trace s) + 1)%nat ∧
  (comparisons (trace (authorize w credentials s).2) ≤ comparisons (trace s) + 1)%nat ∧
  (comparisons (trace (authorize w credentials s).2) = (comparisons (trace s) + 1)%nat →
   queries (trace (authorize w credentials s).2) = (queries (trace s) + 1)%nat) ∧
  (∀ e p, valid_shaped credentials e p → is_Some (connection_of w s) →
   queries (trace (authorize w credentials s).2) = (queries (trace s) + 1)%nat) ∧
  (∃ new, trace (authorize w credentials s).2 = (trace s ++ new)%list ∧
     (io new = [] ∨
      (∃ c e, io new = [SqlQuery c e]) ∨
      (∃ c e p u, io new = [SqlQuery c e; BcryptCompare p (password u)]))).
Proof.
  split_and!.
  5:{ destruct (authorize_emits w s credentials) as (new & Htrace & Hshape).
      exists new. split; [done|].
      destruct Hshape as [->|[->|[(c & e & err & Hf & ->)|[(c & e & ->)|
        [(c & e & p & u & ->)|(c & e & p & u & ->)]]]]]; unfold io; simpl;
        eauto 10. }
  - destruct (authorize_emits w s credentials) as (new & -> & Hshape).
    rewrite queries_app.
    destruct Hshape as [->|[->|[(c & e & err & Hf & ->)|[(c & e & ->)|
      [(c & e & p & u & ->)|(c & e & p & u & ->)]]]]];
      unfold queries, comparisons; simpl; lia.
  - destruct (authorize_emits w s credentials) as (new & -> & Hshape).
    rewrite comparisons_app.
    destruct Hshape as [->|[->|[(c & e & err & Hf & ->)|[(c & e & ->)|
      [(c & e & p & u & ->)|(c & e & p & u & ->)]]]]];
      unfold queries, comparisons; simpl; lia.
  - destruct (authorize_emits w s credentials) as (new & -> & Hshape).
    rewrite comparisons_app, queries_app.
    destruct Hshape as [->|[->|[(c & e & err & Hf & ->)|[(c & e & ->)|
      [(c & e & p & u & ->)|(c & e & p & u & ->)]]]]];
      unfold queries, comparisons; simpl; lia.
  - intros e p Hv%safeParse_valid [c Hc].
    unfold authorize. rewrite Hv. cbn [data_email data_password]. unfold bind at 1.
    destruct (storage_fault w) as [err|] eqn:Hup.
    + rewrite (getUser_fault w s e c err) by done. simpl.
      rewrite !queries_snoc. simpl. lia.
    + rewrite (getUser_available w s e c) by done.
      destruct (head _) as [u|]; simpl; [|by rewrite queries_snoc].
      unfold compare, bind, emit, ret, invalid_credentials. simpl.
      destruct (bcrypt_compare _ _); simpl; rewrite !queries_snoc; simpl; lia.
Qed.

(** X9. A missing [POSTGRES_URL] is reported exactly as an outage is: with
    nothing cached and the variable unset or empty, [getUser] makes no
    query and throws "Failed to fetch user." (the configuration error
    goes to the console only), and [authorize] throws it too for every
    input that passes validation. *)
Theorem misconfiguration_reported_as_fetch_error (w : World) (s : Store) :
  sql s = None → env_missing (POSTGRES_URL w) = true →
  (∀ e, getUser w e s =
        (Throw fetch_error,
         logged s (ConsoleError "Failed to fetch user:" config_error))) ∧
  (∀ credentials data, safeParse credentials = Some data →
     (authorize w credentials s).1 = Throw fetch_error).
Proof.
  intros Hsql Hmiss.
  assert (connection_of w s = None) as Hc.
  { unfold connection_of, fresh_connection. rewrite Hsql.
    destruct (POSTGRES_URL w) as [u|]; [|done]. by rewrite Hmiss. }
  split.
  - intros e. rewrite <- (init_error_missing w Hmiss). by apply getUser_unconfigured.
  - intros credentials data Hp. eapply authorize_throws; [done|]. by right.
Qed.

End Effects.

Section Fresh.
Context `{Driver}.

(** X10. A connection [getDb] creates is made from the variable as it stands,
    with TLS required, and is cached at once. *)
Theorem getDb_fresh_connection (w : World) (s : Store) (c : Connection) :
  sql s = None → (getDb w s).1 = Ok c →
  POSTGRES_URL w = Some (conn_url c) ∧ conn_url c ≠ "" ∧
  conn_ssl c = "require" ∧ sql (getDb w s).2 = Some c ∧
  trace (getDb w s).2 = trace s.
Proof.
  intros Hsql. rewrite getDb_run. unfold connection_of, fresh_connection.
  rewrite Hsql. destruct (POSTGRES_URL w) as [u|]; [|done]. simpl.
  case_bool_decide as Hu; [done|].
  destruct (postgres u "require") as [c'|err] eqn:Hpg; [|done].
  apply postgres_ok in Hpg as ->. simpl. by intros [= <-].
Qed.

End Fresh.

(** ** The query route *)

Section RouteFacts.
Context `{Driver}.

Lemma route_getDb_run (w : World) (s : Route.Store) :
  Route.getDb w s =
  match Route.connection_of w s with
  | Some c => (Ok c, {| Route.sql := Some c; Route.trace := Route.trace s |})
  | None => (Throw (init_error w), s)
  end.
Proof.
  unfold Route.getDb, Route.connection_of, fresh_connection, init_error,
    Route.bind, Route.get_sql, Route.throw, Route.lift.
  destruct s as [[c|] t]; simpl; [done|].
  destruct (POSTGRES_URL w) as [u|]; [|done].
  destruct (bool_decide (u = "")); [done|].
  by destruct (postgres u "require").
Qed.

Lemma route_listInvoices_run (w : World) (db : Route.Database) (s : Route.Store) :
  Route.listInvoices w db s =
  match Route.connection_of w s with
  | Some c =>
      let s' := {| Route.sql := Some c;
                   Route.trace := Route.trace s ++ [Route.InvoiceQuery c] |} in
      match storage_fault w with
      | Some err => (Throw err, s')
      | None => (Ok (Route.select_invoices db), s')
      end
  | None => (Throw (init_error w), s)
  end.
Proof.
  unfold Route.listInvoices, Route.bind at 1. rewrite route_getDb_run.
  destruct (Route.connection_of w s) as [c|]; [|done].
  unfold Route.run_query, Route.bind, Route.emit, Route.throw, Route.ret. simpl.
  by destruct (storage_fault w).
Qed.

Lemma route_GET_run (w : World) (db : Route.Database) (s : Route.Store) :
  Route.GET w db s =
  match Route.connection_of w s with
  | Some c =>
      let s' := {| Route.sql := Some c;
                   Route.trace := Route.trace s ++ [Route.InvoiceQuery c] |} in
      match storage_fault w with
      | Some err =>
          (Ok {| Route.status := 500;
                 Route.body := Route.JsonError (Route.own_enumerable err) |}, s')
      | None =>
          (Ok {| Route.status := 200;
                 Route.body := Route.JsonRows (Route.select_invoices db) |}, s')
      end
  | None =>
      (Ok {| Route.status := 500;
             Route.body := Route.JsonError (Route.own_enumerable (init_error w)) |}, s)
  end.
Proof.
  unfold Route.GET, Route.try_catch, Route.bind. rewrite route_listInvoices_run.
  destruct (Route.connection_of w s) as [c|]; [|done]. simpl.
  by destruct (storage_fault w).
Qed.

Lemma join_on_elem (db : Route.Database) (i : Route.Invoice) (c : Route.Customer) :
  (i, c) ∈ Route.join_on db ↔
  i ∈ Route.invoices db ∧ c ∈ Route.customers db ∧
  Route.invoice_customer_id i = Route.customer_id c.
Proof.
  unfold Route.join_on. rewrite list_elem_of_bind. split.
  - intros (i' & Hin & Hi'). apply list_elem_of_bind in Hin as (c' & Hin & Hc').
    case_decide as Hid; [|by apply elem_of_nil in Hin].
    apply list_elem_of_singleton in Hin as [= -> ->]. done.
  - intros (Hi & Hc & Hid). exists i. split; [|done].
    apply list_elem_of_bind. exists c. split; [|done].
    rewrite decide_True by done. by apply list_elem_of_singleton.
Qed.

(** Rows with a given key, when keys are unique: at most one. *)
Lemma filter_key_length {A} (f : A → string) (k : string) (l : list A) :
  NoDup (f <$> l) → (length (filter (λ x, f x = k) l) ≤ 1)%nat.
Proof.
  induction l as [|x l IH]; intros Hnd; [simpl; lia|].
  rewrite fmap_cons in Hnd. apply NoDup_cons in Hnd as [Hx Hnd].
  destruct (decide (f x = k)) as [Hk|Hk].
  - rewrite filter_cons_True by done. simpl.
    assert (filter (λ y, f y = k) l = []) as ->; [|simpl; lia].
    clear IH Hnd. induction l as [|y l IHl]; [done|].
    rewrite fmap_cons in Hx. apply not_elem_of_cons in Hx as [Hy Hx].
    rewrite filter_cons_False by congruence. by apply IHl.
  - rewrite filter_cons_False by done. by apply IH.
Qed.

Lemma filter_key_length_1 {A} (f : A → string) (k : string) (l : list A) (x : A) :
  NoDup (f <$> l) → x ∈ l → f x = k → length (filter (λ y, f y = k) l) = 1%nat.
Proof.
  intros Hnd Hin Hk. pose proof (filter_key_length f k l Hnd) as Hle.
  assert (x ∈ filter (λ y, f y = k) l) as Hx by by apply list_elem_of_filter.
  destruct (filter (λ y, f y = k) l); [by apply elem_of_nil in Hx|]. simpl in *. lia.
Qed.

(** The customers one invoice is joined with, and what the query keeps
    of them. *)
Lemma join_one_invoice (i : Route.Invoice) (cs : list Route.Customer) :
  (cs ≫= λ c, if decide (Route.invoice_customer_id i = Route.customer_id c)
              then [(i, c)] else []) =
  (λ c, (i, c)) <$> filter (λ c, Route.customer_id c = Route.invoice_customer_id i) cs.
Proof.
  induction cs as [|c cs IH]; [done|]. rewrite bind_cons, IH.
  destruct (decide (Route.invoice_customer_id i = Route.customer_id c)) as [Hid|Hid].
  - by rewrite filter_cons_True.
  - by rewrite filter_cons_False.
Qed.

Lemma kept_of_one_invoice (i : Route.Invoice) (cs : list Route.Customer) :
  length (filter Route.where_amount ((λ c, (i, c)) <$> cs)) =
  if decide (Route.invoice_amount i = 666%Z) then length cs else 0%nat.
Proof.
  induction cs as [|c cs IH]; [by case_decide|].
  rewrite fmap_cons. case_decide as Ha.
  - rewrite filter_cons_True by done. simpl. by rewrite IH.
  - rewrite filter_cons_False by done. done.
Qed.

Lemma kept_length (cs : list Route.Customer) (l : list Route.Invoice) :
  length (filter Route.where_amount
            (l ≫= λ i, cs ≫= λ c,
               if decide (Route.invoice_customer_id i = Route.customer_id c)
               then [(i, c)] else [])) =
  sum_list ((λ i, if decide (Route.invoice_amount i = 666%Z)
                  then length (filter (λ c, Route.customer_id c =
                                            Route.invoice_customer_id i) cs)
                  else 0%nat) <$> l).
Proof.
  induction l as [|i l IH]; [done|].
  rewrite bind_cons, filter_app, length_app, IH, fmap_cons. simpl. f_equal.
  rewrite join_one_invoice, kept_of_one_invoice. by case_decide.
Qed.

(** X12. [GET] always answers: it never throws, the status is 200 or 500,
    and it is 200 exactly when storage answers, that is, no fault and a
    connection that is cached or that [postgres] makes of
    [POSTGRES_URL] (set, not empty, and a connection string it
    accepts). *)
Theorem GET_never_throws (w : World) (db : Route.Database) (s : Route.Store) :
  ∃ resp, (Route.GET w db s).1 = Ok resp ∧
    (Route.status resp = 200%nat ∨ Route.status resp = 500%nat) ∧
    (Route.status resp = 200%nat ↔
     storage_fault w = None ∧ is_Some (Route.connection_of w s)).
Proof.
  rewrite route_GET_run. destruct (Route.connection_of w s) as [c|].
  - destruct (storage_fault w) as [err|]; simpl; eexists; (split; [done|]); simpl.
    + split; [by right|]. split; [done|]. by intros [? _].
    + split; [by left|]. split; [by eauto|done].
  - eexists. split; [done|]. simpl. split; [by right|].
    split; [done|]. by intros [_ [? ?]].
Qed.

(** X13. When storage answers, [GET] responds 200 with the rows of the
    query, after one query on the connection, which it leaves cached. *)
Theorem GET_success (w : World) (db : Route.Database) (s : Route.Store)
    (c : Connection) :
  storage_fault w = None → Route.connection_of w s = Some c →
  Route.GET w db s =
  (Ok {| Route.status := 200;
         Route.body := Route.JsonRows (Route.select_invoices db) |},
   {| Route.sql := Some c;
      Route.trace := Route.trace s ++ [Route.InvoiceQuery c] |}).
Proof. intros Hup Hc. by rewrite route_GET_run, Hc, Hup. Qed.

(** X14. When it fails, [GET] responds 500 with the JSON of [{ error }],
    which holds the own enumerable properties of the error it caught
    and nothing else.  For the configuration error, made by
    [new Error(...)], the body is [{ "error": {} }]: the message is not
    in the response, no query is made and the state is unchanged.  For
    an error of the storage client (a connection string [postgres]
    refuses, a query that fails) the body holds what that error object
    exposes. *)
Theorem GET_failure_body (w : World) (db : Route.Database) (s : Route.Store) :
  (Route.sql s = None → env_missing (POSTGRES_URL w) = true →
   Route.GET w db s =
   (Ok {| Route.status := 500; Route.body := Route.JsonError [] |}, s)) ∧
  (∀ url err, Route.sql s = None → POSTGRES_URL w = Some url → url ≠ "" →
   postgres url "require" = Throw err →
   Route.GET w db s =
   (Ok {| Route.status := 500;
          Route.body := Route.JsonError (Route.own_enumerable err) |}, s)) ∧
  (∀ c err, Route.connection_of w s = Some c → storage_fault w = Some err →
   Route.GET w db s =
   (Ok {| Route.status := 500;
          Route.body := Route.JsonError (Route.own_enumerable err) |},
    {| Route.sql := Some c;
       Route.trace := Route.trace s ++ [Route.InvoiceQuery c] |})) ∧
  (∀ resp, (Route.GET w db s).1 = Ok resp → Route.status resp = 500%nat →
   ∃ err, Route.body resp = Route.JsonError (Route.own_enumerable err)).
Proof.
  split_and!.
  - intros Hsql Hmiss. rewrite route_GET_run.
    unfold Route.connection_of, fresh_connection. rewrite Hsql.
    rewrite (init_error_missing w Hmiss).
    destruct (POSTGRES_URL w) as [u|]; [|done]. by rewrite Hmiss.
  - intros url err Hsql Hurl Hne Hpg. rewrite route_GET_run.
    unfold Route.connection_of, fresh_connection, init_error.
    rewrite Hsql, Hurl. simpl. by rewrite bool_decide_eq_false_2, Hpg.
  - intros c err Hc Hf. by rewrite route_GET_run, Hc, Hf.
  - rewrite route_GET_run. intros resp.
    destruct (Route.connection_of w s) as [c|].
    + destruct (storage_fault w) as [err|]; simpl; intros [= <-]; [by eauto|done].
    + simpl. intros [= <-] _. by eauto.
Qed.

(** X15. Once [GET] has answered 200 the connection is cached: a later
    call answers 200 with the rows of the day whatever has become of
    [POSTGRES_URL], provided storage has no fault. *)
Theorem GET_after_success (w w' : World) (db db' : Route.Database) (s : Route.Store)
    (resp : Route.Response) :
  (Route.GET w db s).1 = Ok resp → Route.status resp = 200%nat →
  storage_fault w' = None →
  (Route.GET w' db' (Route.GET w db s).2).1 =
  Ok {| Route.status := 200;
        Route.body := Route.JsonRows (Route.select_invoices db') |}.
Proof.
  rewrite (route_GET_run w db s). intros Hresp Hst Hup'.
  destruct (Route.connection_of w s) as [c|].
  - destruct (storage_fault w) as [err|]; simpl in *.
    + injection Hresp as <-. done.
    + rewrite route_GET_run. unfold Route.connection_of. simpl. by rewrite Hup'.
  - simpl in *. injection Hresp as <-. done.
Qed.

(** X16. The rows of the query are exactly the pairs (666, name) where
    name is the name of a customer some invoice of amount 666 points to;
    an invoice whose customer is absent yields no row. *)
Theorem select_invoices_elem (db : Route.Database) (r : Route.Row) :
  r ∈ Route.select_invoices db ↔
  ∃ i c, i ∈ Route.invoices db ∧ c ∈ Route.customers db ∧
         Route.invoice_customer_id i = Route.customer_id c ∧
         Route.invoice_amount i = 666%Z ∧
         r = {| Route.amount := 666; Route.name := Route.customer_name c |}.
Proof.
  unfold Route.select_invoices. rewrite (Route.row_order_perm db _).
  rewrite list_elem_of_fmap. split.
  - intros ([i c] & -> & Hin). apply list_elem_of_filter in Hin as [Ha Hin].
    apply join_on_elem in Hin as (Hi & Hc & Hid).
    unfold Route.where_amount in Ha. simpl in Ha.
    exists i, c. unfold Route.select_columns. simpl. by rewrite Ha.
  - intros (i & c & Hi & Hc & Hid & Ha & ->). exists (i, c). split.
    + unfold Route.select_columns. simpl. by rewrite Ha.
    + apply list_elem_of_filter. split; [done|]. by apply join_on_elem.
Qed.

(** X17. With customer ids unique, the query yields at most one row per
    invoice of amount 666, and exactly one when every such invoice points
    to a customer that exists. *)
Theorem select_invoices_count (db : Route.Database) :
  NoDup (Route.customer_id <$> Route.customers db) →
  (length (Route.select_invoices db) ≤ length (Route.billed_666 db))%nat ∧
  ((∀ i, i ∈ Route.billed_666 db →
      ∃ c, c ∈ Route.customers db ∧
           Route.customer_id c = Route.invoice_customer_id i) →
   length (Route.select_invoices db) = length (Route.billed_666 db)).
Proof.
  intros Hnd. unfold Route.select_invoices.
  rewrite (Permutation_length (Route.row_order_perm db _)).
  unfold Route.join_on, Route.billed_666.
  rewrite length_fmap, kept_length.
  induction (Route.invoices db) as [|i l IH]; [done|].
  rewrite fmap_cons. simpl. destruct IH as [IHle IHeq].
  destruct (decide (Route.invoice_amount i = 666%Z)) as [Ha|Ha].
  - rewrite filter_cons_True by done. simpl. split.
    + pose proof (filter_key_length Route.customer_id
                    (Route.invoice_customer_id i) _ Hnd). lia.
    + intros Hfk. rewrite IHeq.
      * destruct (Hfk i) as (c & Hc & Hid); [by left|].
        by rewrite (filter_key_length_1 Route.customer_id _ _ c Hnd Hc Hid).
      * intros i' Hi'. apply Hfk. by right.
  - rewrite filter_cons_False by done. split; [lia|].
    intros Hfk. by rewrite IHeq.
Qed.

End RouteFacts.

(** ** The lookup and the login action *)

Section Login.
Context `{Libraries} `{Driver} `{Actions.NextAuth}.

(** X11. [getUser] answers truthfully: a user it returns is a stored row
    with the email asked for, and it returns undefined only when no
    stored row has that email. *)
Theorem getUser_lookup_sound (w : World) (s : Store) (e : string) :
  (∀ u, (getUser w e s).1 = Ok (Some u) → u ∈ users w ∧ email u = e) ∧
  ((getUser w e s).1 = Ok None → ∀ u, u ∈ users w → email u ≠ e).
Proof.
  destruct (connection_of w s) as [c|] eqn:Hc.
  2:{ rewrite getUser_unconfigured by done. by split. }
  destruct (storage_fault w) as [err|] eqn:Hup.
  { rewrite (getUser_fault w s e c err) by done. by split. }
  rewrite (getUser_available w s e c) by done. simpl. split.
  - intros u [= Hh]. by apply select_head_elem in Hh as [? ?].
  - intros [= Hh] u Hu He.
    assert (u ∈ select_users_by_email w e) as Hin by by apply select_elem.
    destruct (select_users_by_email w e); [by apply elem_of_nil in Hin|done].
Qed.

(** X18. [authenticate] turns one error into a message and nothing else:
    it returns undefined when [signIn] returns, the string
    "Invalid credentials." when [signIn] throws an [AuthError] of type
    [CredentialsSignin], and throws again, unchanged, whatever else
    [signIn] throws, other kinds of [AuthError] included.  The previous
    state plays no part. *)
Theorem authenticate_outcomes (w : World) (prevState : option string)
    (formData : Actions.FormData) (s : Store) :
  (Actions.authenticate w prevState formData s).2 = (Actions.signIn w formData s).2 ∧
  (∀ r, (Actions.signIn w formData s).1 = Actions.Returned r →
     (Actions.authenticate w prevState formData s).1 = Actions.Returned None) ∧
  ((Actions.signIn w formData s).1 = Actions.Threw (Actions.AuthError "CredentialsSignin") →
     (Actions.authenticate w prevState formData s).1 =
     Actions.Returned (Some "Invalid credentials.")) ∧
  (∀ t, (Actions.signIn w formData s).1 = Actions.Threw t →
     t ≠ Actions.AuthError "CredentialsSignin" →
     (Actions.authenticate w prevState formData s).1 = Actions.Threw t) ∧
  (∀ m, (Actions.authenticate w prevState formData s).1 = Actions.Returned (Some m) →
     m = "Invalid credentials.").
Proof.
  unfold Actions.authenticate.
  destruct (Actions.signIn w formData s) as [[r|[type|e]] s']; simpl;
    [|case_bool_decide as Ht; simpl|];
    split_and!; intros; simplify_eq; done.
Qed.

(** X19. Given the documented behaviour of [signIn], every submission
    [authorize] answers with null gets the same reply from
    [authenticate], the string "Invalid credentials.": a form that fails
    validation and a well-formed one with an unknown email or a wrong
    password are told the same thing. *)
Theorem authenticate_rejection_message (w : World) (prevState : option string)
    (formData : Actions.FormData) (s : Store) :
  Actions.signIn_documented w →
  (authorize w (Actions.credentials_of formData) s).1 = Ok None →
  (Actions.authenticate w prevState formData s).1 =
  Actions.Returned (Some "Invalid credentials.").
Proof.
  intros Hdoc Hnull. specialize (Hdoc formData s Hnull).
  unfold Actions.authenticate.
  destruct (Actions.signIn w formData s) as [r s']. simpl in Hdoc. by subst r.
Qed.

End Login.

(** ** The specification's scenarios, run *)

Section Scenarios.
Import Scenario.

Local Ltac run := vm_compute; reflexivity.

Local Ltac shaped :=
  unfold valid_shaped; split_and!; first [run | simpl; lia].

Local Ltac available := split; [reflexivity | eexists; reflexivity].

Lemma online_unique : unique_emails online.
Proof. apply (bool_decide_unpack _). run. Defined.

Lemma not_stored (w : World) (e : string) :
  bool_decide (Forall (λ u, email u ≠ e) (users w)) = true →
  ∀ u, u ∈ users w → email u ≠ e.
Proof.
  intros Hall%bool_decide_eq_true_1 u Hu.
  by apply (proj1 (Forall_forall _ _) Hall).
Defined.

(** Scenario: the stored user signs in with the right password. *)
Lemma authorize_authenticates_witness :
  ∃ user, (authorize online (form "user@example.com" "123456") fresh).1
          = Ok (Some user) ∧ user = alice ∧
          form "user@example.com" "123456" !! "email" = Some (JsString (email user)).
Proof.
  apply (authorize_authenticates online fresh _ "user@example.com" "123456" alice).
  - shaped.
  - available.
  - exact online_unique.
  - set_solver.
  - reflexivity.
  - run.
Defined.

(** Scenarios: no matching record; a matching record and a wrong
    password. *)
Lemma authorize_rejects_witness :
  (authorize empty_table (form "user@example.com" "123456") fresh).1 = Ok None ∧
  (authorize online (form "user@example.com" "1234567") fresh).1 = Ok None.
Proof.
  split.
  - apply (authorize_rejects empty_table fresh _ "user@example.com" "123456").
    + shaped.
    + available.
    + left. apply not_stored. run.
  - apply (authorize_rejects online fresh _ "user@example.com" "1234567").
    + shaped.
    + available.
    + right. split; [exact online_unique|]. exists alice.
      split; [set_solver|]. split; [reflexivity|run].
Defined.

(** Scenarios: a short password, a missing field, a number where a string
    is due, an email without an at-sign. *)
Lemma authorize_malformed_witness :
  authorize online (form "user@example.com" "short") fresh
    = (Ok None, logged fresh (ConsoleLog "Invalid credentials")) ∧
  authorize online {[ "password" := JsString "123456" ]} fresh
    = (Ok None, logged fresh (ConsoleLog "Invalid credentials")) ∧
  authorize online {[ "email" := JsString "user@example.com" ]} fresh
    = (Ok None, logged fresh (ConsoleLog "Invalid credentials")) ∧
  authorize online {[ "email" := JsString "user@example.com";
                      "password" := JsNumber 123456 ]} fresh
    = (Ok None, logged fresh (ConsoleLog "Invalid credentials")) ∧
  authorize online (form "user.example.com" "123456") fresh
    = (Ok None, logged fresh (ConsoleLog "Invalid credentials")).
Proof.
  split_and!; apply authorize_malformed.
  - apply (password_too_short _ "short"); [run | simpl; lia].
  - apply missing_email. run.
  - apply missing_password. run.
  - apply (password_wrong_type _ (JsNumber 123456)); run.
  - apply (email_bad_grammar _ "user.example.com"); run.
Defined.

(** C4, as stated, fails: a malformed input and a well-formed one with a
    wrong password get the same value from [authorize], and during an
    outage the call ends in none of the three outcomes. *)
Lemma malformed_and_rejected_coincide :
  safeParse (form "user@example.com" "short") = None ∧
  safeParse (form "user@example.com" "1234567")
    = Some {| data_email := "user@example.com"; data_password := "1234567" |} ∧
  (authorize online (form "user@example.com" "short") fresh).1
    = (authorize online (form "user@example.com" "1234567") fresh).1 ∧
  (authorize outage (form "user@example.com" "123456") fresh).1
    = Throw (Error "Failed to fetch user.").
Proof. split_and!; run. Qed.

Lemma authorize_outcomes_witness :
  (authorize online (form "user@example.com" "short") fresh).1 = Ok None.
Proof.
  apply (authorize_outcomes online fresh (form "user@example.com" "short")). run.
Defined.

(** C5, as stated, fails: the record handed back on success carries the
    stored hash in clear. *)
Lemma authorize_exposes_hash :
  (authorize online (form "user@example.com" "123456") fresh).1 = Ok (Some alice) ∧
  head (select_users_by_email online "user@example.com") = Some alice ∧
  password alice = "$2b$10$123456".
Proof. split_and!; run. Qed.

Lemma authorize_returns_stored_row_witness :
  alice ∈ users online ∧
  ∃ e p, valid_shaped (form "user@example.com" "123456") e p ∧
         head (select_users_by_email online e) = Some alice ∧
         bcrypt_compare p (password alice) = true.
Proof.
  apply (authorize_returns_stored_row online fresh). run.
Defined.

(** C6, as stated, fails: for an unknown email the trace holds the query
    and no comparison, while the wrong-password path holds one. *)
Lemma unknown_email_runs_no_comparison :
  valid_shaped (form "user@example.com" "123456") "user@example.com" "123456" ∧
  select_users_by_email empty_table "user@example.com" = [] ∧
  authorize empty_table (form "user@example.com" "123456") fresh
    = (Ok None,
       {| sql := Some conn;
          trace := [SqlQuery conn "user@example.com"] |}) ∧
  comparisons (trace (authorize empty_table (form "user@example.com" "123456") fresh).2)
    = 0%nat ∧
  comparisons (trace (authorize online (form "user@example.com" "1234567") fresh).2)
    = 1%nat.
Proof. split; [shaped|]. split_and!; run. Qed.

Lemma authorize_unknown_email_witness :
  ∃ c, connection_of empty_table fresh = Some c ∧
       authorize empty_table (form "user@example.com" "123456") fresh
         = (Ok None, queried fresh c "user@example.com") ∧
       comparisons (trace (authorize empty_table (form "user@example.com" "123456") fresh).2)
         = comparisons (trace fresh).
Proof.
  apply (authorize_unknown_email empty_table fresh _ "user@example.com" "123456").
  - shaped.
  - available.
  - apply not_stored. run.
Defined.

(** Scenario: the database times out. *)
Lemma storage_failure_propagates_witness :
  (getUser outage "user@example.com" fresh).1 = Throw fetch_error ∧
  (authorize outage (form "user@example.com" "123456") fresh).1 = Throw fetch_error.
Proof.
  pose proof (storage_failure_propagates outage fresh (Error "connect ETIMEDOUT")
                eq_refl) as (Hget & Hauth & _).
  split.
  - apply (Hget "user@example.com").
  - apply (Hauth _ {| data_email := "user@example.com"; data_password := "123456" |}).
    run.
Defined.

Lemma validation_precedes_storage_witness :
  sql (authorize online (form "user@example.com" "short") fresh).2 = None ∧
  queries (trace (authorize online (form "user@example.com" "short") fresh).2) = 0%nat ∧
  comparisons (trace (authorize online (form "user@example.com" "short") fresh).2) = 0%nat ∧
  trace (authorize online (form "user@example.com" "short") fresh).2
    = [ConsoleLog "Invalid credentials"].
Proof.
  apply (validation_precedes_storage online fresh (form "user@example.com" "short")).
  run.
Defined.

(** Scenario: the first call finds no [POSTGRES_URL]; the second finds
    a connection string, or something that is not one. *)
Lemma getDb_failed_init_retry_witness :
  getDb unconfigured fresh = (Throw config_error, fresh) ∧
  sql (getDb unconfigured fresh).2 = None ∧
  getDb online (getDb unconfigured fresh).2 =
    (Ok conn, {| sql := Some conn; trace := [] |}) ∧
  getDb misconfigured (getDb unconfigured fresh).2 =
    (Throw (LibraryError "Invalid URL"
              [("code", JsString "ERR_INVALID_URL");
               ("input", JsString "not a url")]), fresh).
Proof.
  pose proof (getDb_failed_init_retry unconfigured online fresh url)
    as (Hthrow & Hnull & _ & Hok & _);
    [reflexivity | reflexivity | reflexivity | discriminate |].
  pose proof (getDb_failed_init_retry unconfigured misconfigured fresh "not a url")
    as (_ & _ & _ & _ & Hbad);
    [reflexivity | reflexivity | reflexivity | discriminate |].
  split_and!; [exact Hthrow | exact Hnull | by apply (Hok conn) | by apply Hbad].
Defined.

(** Scenario: the variable disappears after the first call. *)
Lemma getDb_cached_witness :
  sql (getDb online fresh).2 = Some conn ∧
  getDb unconfigured (getDb online fresh).2 =
    (Ok conn, (getDb online fresh).2).
Proof. apply (getDb_cached online unconfigured fresh). run. Defined.

(** Scenario: two rows under one email; the first one wins. *)
Lemma getUser_first_row_witness :
  (getUser empty_table "user@example.com" fresh).1 = Ok None ∧
  (getUser duplicated "user@example.com" fresh).1 = Ok (Some alice).
Proof.
  split.
  - apply (getUser_first_row empty_table fresh "user@example.com"); [available|run].
  - pose proof (getUser_first_row duplicated fresh "user@example.com") as Hrow.
    destruct Hrow as (_ & Hfirst & _); [available|].
    apply (Hfirst alice [alice_shadow]). run.
Defined.

End Scenarios.

(** ** Further scenarios, run *)

Section MoreScenarios.
Import Scenario Scenario2.

Local Ltac run := vm_compute; reflexivity.

Lemma toy_auth_documented (w : World) : Actions.signIn_documented w.
Proof.
  intros formData s Hnull. simpl.
  destruct (authorize w (Actions.credentials_of formData) s) as [[[u|]|err] s'];
    simpl in *; congruence.
Defined.

Lemma customers_exist (db : Route.Database) :
  bool_decide (Forall (λ i, Exists (λ c, Route.customer_id c = Route.invoice_customer_id i)
                                   (Route.customers db))
                      (Route.billed_666 db)) = true →
  ∀ i, i ∈ Route.billed_666 db →
    ∃ c, c ∈ Route.customers db ∧ Route.customer_id c = Route.invoice_customer_id i.
Proof.
  intros Hall%bool_decide_eq_true_1 i Hi.
  pose proof (proj1 (Forall_forall _ _) Hall i Hi) as Hex.
  by apply Exists_exists in Hex.
Defined.

(** Scenario: the form sends [callbackUrl] along; it changes nothing. *)
Lemma authorize_ignores_other_fields_witness :
  authorize online (Actions.credentials_of (login "user@example.com" "123456")) fresh
  = authorize online (form "user@example.com" "123456") fresh.
Proof. apply authorize_ignores_other_fields; run. Defined.

(** Scenario: the variable is gone, the connection is not. *)
Lemma authorize_cached_ignores_env_witness :
  authorize online (form "user@example.com" "123456") warm
  = authorize unconfigured (form "user@example.com" "123456") warm.
Proof.
  apply (authorize_cached_ignores_env online unconfigured warm);
    [by eexists | reflexivity | reflexivity].
Defined.

Lemma cached_connection_kept_witness :
  sql (getDb unconfigured warm).2 = Some conn ∧
  (∀ e, sql (getUser unconfigured e warm).2 = Some conn) ∧
  (∀ credentials,
     sql (authorize unconfigured credentials warm).2 = Some conn).
Proof. apply (cached_connection_kept unconfigured warm). reflexivity. Defined.

(** Scenario: a call during an outage, then the same call after it. *)
Lemma authorize_unaffected_by_earlier_call_witness :
  (authorize online (form "user@example.com" "123456")
     (authorize outage (form "user@example.com" "123456") fresh).2).1
  = (authorize online (form "user@example.com" "123456") fresh).1.
Proof. apply (authorize_unaffected_by_earlier_call outage online). reflexivity. Defined.

Lemma authorize_round_trips_witness :
  queries (trace (authorize outage (form "user@example.com" "123456") fresh).2)
  = (queries (trace fresh) + 1)%nat.
Proof.
  apply (authorize_round_trips outage fresh _) with "user@example.com" "123456".
  - unfold valid_shaped; split_and!; first [run | simpl; lia].
  - eexists. reflexivity.
Defined.

Lemma misconfiguration_reported_as_fetch_error_witness :
  (∀ e, getUser unconfigured e fresh =
        (Throw fetch_error,
         logged fresh (ConsoleError "Failed to fetch user:" config_error))) ∧
  (∀ credentials data, safeParse credentials = Some data →
     (authorize unconfigured credentials fresh).1 = Throw fetch_error).
Proof.
  apply (misconfiguration_reported_as_fetch_error unconfigured fresh); reflexivity.
Defined.

Lemma getDb_fresh_connection_witness :
  POSTGRES_URL online = Some url ∧ url ≠ "" ∧
  conn_ssl conn = "require" ∧
  sql (getDb online fresh).2 = Some conn ∧
  trace (getDb online fresh).2 = [].
Proof.
  apply (getDb_fresh_connection online fresh conn); reflexivity.
Defined.

Lemma getUser_lookup_sound_witness :
  alice ∈ users online ∧ email alice = "user@example.com".
Proof.
  apply (getUser_lookup_sound online fresh "user@example.com"). run.
Defined.

(** Scenario: the ledger holds two invoices of 666 for Acme and one that
    points nowhere. *)
Lemma GET_success_witness :
  Route.GET online ledger idle =
  (Ok {| Route.status := 200;
         Route.body := Route.JsonRows
           [ {| Route.amount := 666; Route.name := "Acme" |};
             {| Route.amount := 666; Route.name := "Acme" |} ] |},
   {| Route.sql := Some conn;
      Route.trace := [Route.InvoiceQuery conn] |}).
Proof. apply (GET_success online ledger idle); reflexivity. Defined.

Lemma GET_failure_body_witness :
  Route.GET unconfigured ledger idle =
    (Ok {| Route.status := 500; Route.body := Route.JsonError [] |}, idle) ∧
  Route.GET misconfigured ledger idle =
    (Ok {| Route.status := 500;
           Route.body := Route.JsonError
             [("code", JsString "ERR_INVALID_URL");
              ("input", JsString "not a url")] |}, idle) ∧
  (Route.GET refused ledger idle).1 =
    Ok {| Route.status := 500;
          Route.body := Route.JsonError [("code", JsString "ECONNREFUSED")] |}.
Proof.
  pose proof (GET_failure_body unconfigured ledger idle) as (Hconf & _).
  pose proof (GET_failure_body misconfigured ledger idle) as (_ & Hurl & _).
  pose proof (GET_failure_body refused ledger idle) as (_ & _ & Hfault & _).
  split_and!.
  - by apply Hconf.
  - by apply (Hurl "not a url" (LibraryError "Invalid URL"
                 [("code", JsString "ERR_INVALID_URL");
                  ("input", JsString "not a url")])).
  - by rewrite (Hfault conn (LibraryError "connect ECONNREFUSED"
                               [("code", JsString "ECONNREFUSED")])).
Defined.

Lemma GET_after_success_witness :
  (Route.GET unconfigured sound_ledger (Route.GET online ledger idle).2).1 =
  Ok {| Route.status := 200;
        Route.body := Route.JsonRows (Route.select_invoices sound_ledger) |}.
Proof.
  eapply (GET_after_success online unconfigured ledger sound_ledger idle);
    [run | reflexivity | reflexivity].
Defined.

Lemma select_invoices_count_witness :
  (length (Route.select_invoices ledger) ≤ length (Route.billed_666 ledger))%nat ∧
  length (Route.select_invoices sound_ledger) = length (Route.billed_666 sound_ledger).
Proof.
  split.
  - apply (select_invoices_count ledger). apply (bool_decide_unpack _). run.
  - apply (select_invoices_count sound_ledger).
    + apply (bool_decide_unpack _). run.
    + apply customers_exist. run.
Defined.

(** Scenario: a password too short, and a wrong one. *)
Lemma authenticate_rejection_message_witness :
  (Actions.authenticate online None (login "user@example.com" "short") fresh).1
    = Actions.Returned (Some "Invalid credentials.") ∧
  (Actions.authenticate online None (login "user@example.com" "1234567") fresh).1
    = Actions.Returned (Some "Invalid credentials.").
Proof.
  split; apply authenticate_rejection_message;
    first [apply toy_auth_documented | run].
Defined.

End MoreScenarios.
